(** * Titancoin ledger (src/blockchain.py): a shallow embedding

    The Python module keeps one [Ledger] object whose [first] and [last]
    attributes point into a linked list of [_Transaction] objects, and a
    dictionary [_balance] from person name to balance.  Transactions are
    heap objects that are shared by reference, so the embedding has an
    explicit store of transaction records addressed by location; the
    methods are computations in a state-and-exception monad over that
    store and the ledger's three attributes.

    Python integers are unbounded ([Z]); names are [string]; the
    dictionary is a [gmap string Z] (no property below depends on the
    insertion order of a Python dict).  The [python_ta] decorator
    [check_contracts] is an imported library and is not part of the
    embedding: the documented preconditions appear as hypotheses where
    a property needs them. *)

From stdpp Require Import gmap strings list fin_maps.
From Stdlib Require Import ZArith.

Open Scope string_scope.
Open Scope Z_scope.

(** ** Data model *)

(** A reference to a [_Transaction] object: its index in the store. *)
Definition loc := nat.

(** The dataclass [_Transaction]; [next], [prev_digest] and [nonce]
    default to [None], [0] and [0]. *)
Record _Transaction := mk_Transaction {
  sender : string;
  recipient : string;
  amount : Z;
  next : option loc;
  prev_digest : Z;
  nonce : Z
}.

(** The attributes of the [Ledger] object. *)
Record Ledger := mk_Ledger {
  first : option loc;
  last : option loc;
  _balance : gmap string Z
}.

(** The program state: every transaction object allocated so far, and
    the ledger ([self]). *)
Record State := mk_State {
  heap : list _Transaction;
  self : Ledger
}.

(** [Ledger.__init__]: no transactions, no balances. *)
Definition init : State := mk_State [] (mk_Ledger None None ∅).

(** ** The state-and-exception monad *)

(** The exceptions the methods can raise.  [DanglingRef] stands for
    following a location that is not in the store; Python has no such
    thing, and it arises only on a store that is not well formed. *)
Inductive exn := ValueError | KeyError | DanglingRef.

(** How a call ends: it returns, it raises, or (for the [while] loop of
    [verify_balance], run with a bound on its iterations) the bound was
    reached before the loop ended. *)
Inductive result (A : Type) :=
| Ret (a : A)
| Raise (e : exn)
| OutOfFuel.
Arguments Ret {A} a.
Arguments Raise {A} e.
Arguments OutOfFuel {A}.

Definition M (A : Type) : Type := State → result A * State.

#[global] Instance M_ret : MRet M := λ A (a : A) s, (Ret a, s).

#[global] Instance M_bind : MBind M := λ A B (k : A → M B) (m : M A) s,
  match m s with
  | (Ret a, s') => k a s'
  | (Raise e, s') => (Raise e, s')
  | (OutOfFuel, s') => (OutOfFuel, s')
  end.

Definition raise {A} (e : exn) : M A := λ s, (Raise e, s).

Definition out_of_fuel {A} : M A := λ s, (OutOfFuel, s).

(** *** Primitive operations on the store and on [self] *)

(** [_Transaction(...)]: a fresh object at the next free location. *)
Definition alloc (t : _Transaction) : M loc := λ s,
  (Ret (length (heap s)), mk_State (heap s ++ [t]) (self s)).

(** Reading the object behind a reference. *)
Definition deref (l : loc) : M _Transaction := λ s,
  match heap s !! l with
  | Some t => (Ret t, s)
  | None => (Raise DanglingRef, s)
  end.

(** [obj.prev_digest = d]. *)
Definition set_prev_digest (l : loc) (d : Z) : M unit := λ s,
  match heap s !! l with
  | Some t =>
      (Ret tt,
       mk_State
         (<[l := mk_Transaction (sender t) (recipient t) (amount t)
                   (next t) d (nonce t)]> (heap s))
         (self s))
  | None => (Raise DanglingRef, s)
  end.

Definition get_first : M (option loc) := λ s, (Ret (first (self s)), s).

Definition get_last : M (option loc) := λ s, (Ret (last (self s)), s).

(** [self.first = o]. *)
Definition set_first (o : option loc) : M unit := λ s,
  (Ret tt,
   mk_State (heap s) (mk_Ledger o (last (self s)) (_balance (self s)))).

(** [self.last = o]. *)
Definition set_last (o : option loc) : M unit := λ s,
  (Ret tt,
   mk_State (heap s) (mk_Ledger (first (self s)) o (_balance (self s)))).

(** [self._balance], read as a whole (for iterating over it). *)
Definition read_balance : M (gmap string Z) := λ s,
  (Ret (_balance (self s)), s).

(** [self._balance[name]]: a missing key raises [KeyError]. *)
Definition balance_getitem (name : string) : M Z := λ s,
  match _balance (self s) !! name with
  | Some v => (Ret v, s)
  | None => (Raise KeyError, s)
  end.

(** [name in self._balance]. *)
Definition balance_contains (name : string) : M bool := λ s,
  (Ret (bool_decide (is_Some (_balance (self s) !! name))), s).

(** [self._balance[name] = v]. *)
Definition balance_setitem (name : string) (v : Z) : M unit := λ s,
  (Ret tt,
   mk_State (heap s)
     (mk_Ledger (first (self s)) (last (self s))
        (<[name := v]> (_balance (self s))))).

(** [d[name]] on a local dictionary [d]. *)
Definition dict_getitem (d : gmap string Z) (name : string) : M Z :=
  match d !! name with
  | Some v => mret v
  | None => raise KeyError
  end.

(** The keys of a dictionary, as iterated by [for name in d]. *)
Definition keys (d : gmap string Z) : list string := (map_to_list d).*1.

(** ** Part 2(a): the methods of [Ledger] *)

(** [Ledger.record_transfer], lines 111-129. *)
Definition record_transfer (sender recipient : string) (amount : Z) : M unit :=
  new_tansfer ← alloc (mk_Transaction sender recipient amount None 0 0);
  b ← balance_getitem sender;
  if b <? amount then raise ValueError
  else
    known ← balance_contains sender;
    if negb known then raise ValueError
    else
      set_last (Some new_tansfer);;
      b ← balance_getitem sender;
      let deducted_balance := b - amount in
      balance_setitem sender deducted_balance;;
      known ← balance_contains recipient;
      if negb known then balance_setitem recipient amount
      else
        b ← balance_getitem recipient;
        let added_balance := b + amount in
        balance_setitem recipient added_balance.

(** [Ledger.record_mining], lines 149-157. *)
Definition record_mining (miner : string) (amount : Z) : M unit :=
  new_miner ← alloc (mk_Transaction "" miner amount None 0 0);
  f ← get_first;
  match f with
  | None =>
      set_first (Some new_miner);;
      balance_setitem miner amount
  | Some _ =>
      set_last (Some new_miner);;
      balance_setitem miner amount
  end.

(** [Ledger.get_balance], lines 167-171. *)
Definition get_balance (person : string) : M Z :=
  known ← balance_contains person;
  if negb known then raise ValueError
  else
    current_balance ← balance_getitem person;
    mret current_balance.

(** The [while curr_trans is not None] loop of [verify_balance], lines
    201-211, with at most [fuel] iterations.  It ends either by the
    [return False] inside the loop ([inl false]) or by leaving the loop
    with the accumulated [balance_so_far] ([inr]). *)
Fixpoint verify_walk (fuel : nat) (curr_trans : option loc)
    (balance_so_far : gmap string Z) {struct fuel}
    : M (bool + gmap string Z) :=
  match curr_trans with
  | None => mret (inr balance_so_far)
  | Some l =>
      match fuel with
      | O => out_of_fuel
      | S fuel' =>
          t ← deref l;
          let recipient := recipient t in
          let sender := sender t in
          r ← dict_getitem balance_so_far recipient;
          let balance_so_far := <[recipient := r + amount t]> balance_so_far in
          if bool_decide (sender ≠ "") then
            b ← balance_getitem sender;
            if b <? amount t then mret (inl false)
            else
              b ← balance_getitem sender;
              if b =? 0 then mret (inl false)
              else
                v ← dict_getitem balance_so_far sender;
                verify_walk fuel' (next t)
                  (<[sender := v - amount t]> balance_so_far)
          else verify_walk fuel' (next t) balance_so_far
      end
  end.

(** The final [for name in balance_so_far] loop, lines 212-216. *)
Fixpoint verify_compare (names : list string)
    (balance_so_far : gmap string Z) : M bool :=
  match names with
  | [] => mret true
  | name :: names' =>
      v ← dict_getitem balance_so_far name;
      b ← balance_getitem name;
      if negb (v =? b) then mret false
      else verify_compare names' balance_so_far
  end.

(** [Ledger.verify_balance], lines 196-216. *)
Definition verify_balance (fuel : nat) : M bool :=
  let balance_so_far : gmap string Z := ∅ in
  curr_trans ← get_first;
  bal ← read_balance;
  let balance_so_far :=
    foldl (λ acc name, <[name := 0]> acc) balance_so_far (keys bal) in
  r ← verify_walk fuel curr_trans balance_so_far;
  match r with
  | inl b => mret b
  | inr balance_so_far =>
      verify_compare (keys balance_so_far) balance_so_far
  end.

(** ** Part 2(b): the digest-aware methods *)

Section Digest.

(** [digest_from_hash] is called by both methods, but
    src/blockchain.py does not define it: it is a parameter of the
    embedding.  The methods pass it [self.last], which is either a
    transaction object or [None]; it is taken to return an integer on
    both. *)
Variable digest_from_hash : option _Transaction → Z.

(** [digest_from_hash(ref)] for a reference [ref] that may be [None]. *)
Definition digest_of_ref (ref : option loc) : M Z :=
  match ref with
  | None => mret (digest_from_hash None)
  | Some l =>
      t ← deref l;
      mret (digest_from_hash (Some t))
  end.

(** [Ledger.record_transfer_digest], lines 239-257. *)
Definition record_transfer_digest (sender recipient : string) (amount : Z)
    : M unit :=
  tail ← get_last;
  d ← digest_of_ref tail;
  new_tansfer ← alloc (mk_Transaction sender recipient amount None d 0);
  b ← balance_getitem sender;
  if b <? amount then raise ValueError
  else
    known ← balance_contains sender;
    if negb known then raise ValueError
    else
      set_last (Some new_tansfer);;
      b ← balance_getitem sender;
      let deducted_balance := b - amount in
      balance_setitem sender deducted_balance;;
      known ← balance_contains recipient;
      if negb known then balance_setitem recipient amount
      else
        b ← balance_getitem recipient;
        let added_balance := b + amount in
        balance_setitem recipient added_balance.

(** [Ledger.record_mining_digest], lines 273-283. *)
Definition record_mining_digest (miner : string) (amount : Z) : M unit :=
  tail ← get_last;
  d ← digest_of_ref tail;
  new_miner ← alloc (mk_Transaction "" miner amount None d 0);
  f ← get_first;
  match f with
  | None =>
      set_first (Some new_miner);;
      balance_setitem miner amount;;
      set_prev_digest new_miner 0
  | Some _ =>
      set_last (Some new_miner);;
      balance_setitem miner amount
  end.

End Digest.

(** ** Sequences of calls *)

(** One mutation call of Part 2(a). *)
Inductive op :=
| Mining (miner : string) (amount : Z)
| Transfer (sender recipient : string) (amount : Z).

Definition call (o : op) : M unit :=
  match o with
  | Mining miner amount => record_mining miner amount
  | Transfer sender recipient amount => record_transfer sender recipient amount
  end.

(** The state a call leaves behind, whether it returned or raised (the
    caller catches the exception and goes on). *)
Definition exec (s : State) (o : op) : State := (call o s).2.

Definition run_from (s : State) (ops : list op) : State := foldl exec s ops.

(** The calls [ops], in order, on a ledger created empty. *)
Definition run (ops : list op) : State := run_from init ops.

(** Whether a call returns normally from state [s]. *)
Definition succeeds (s : State) (o : op) : bool :=
  match (call o s).1 with
  | Ret _ => true
  | _ => false
  end.

(** Whether every call of [ops] returns normally, starting from [s]. *)
Fixpoint all_succeed (s : State) (ops : list op) : bool :=
  match ops with
  | [] => true
  | o :: ops' => succeeds s o && all_succeed (exec s o) ops'
  end.

(** The documented preconditions of the two methods. *)
Definition valid_op (o : op) : Prop :=
  match o with
  | Mining miner amount => miner ≠ "" ∧ 0 < amount
  | Transfer sender recipient amount =>
      sender ≠ "" ∧ recipient ≠ "" ∧ 0 < amount
  end.

(** One mutation call of Part 2(b). *)
Inductive dop :=
| MiningDigest (miner : string) (amount : Z)
| TransferDigest (sender recipient : string) (amount : Z).

Definition dcall (digest_from_hash : option _Transaction → Z) (o : dop)
    : M unit :=
  match o with
  | MiningDigest miner amount =>
      record_mining_digest digest_from_hash miner amount
  | TransferDigest sender recipient amount =>
      record_transfer_digest digest_from_hash sender recipient amount
  end.

Definition drun (digest_from_hash : option _Transaction → Z)
    (ops : list dop) : State :=
  foldl (λ s o, (dcall digest_from_hash o s).2) init ops.

(** ** Observations used by the properties *)

(** The records met from reference [o] by following [next], at most
    [fuel] of them: what an external traversal from [first] sees. *)
Fixpoint chain (fuel : nat) (h : list _Transaction) (o : option loc)
    : list loc :=
  match fuel, o with
  | S fuel', Some l =>
      match h !! l with
      | Some t => l :: chain fuel' h (next t)
      | None => []
      end
  | _, _ => []
  end.

(** The sum of all values of a balance dictionary. *)
Definition sum_balances (b : gmap string Z) : Z :=
  map_fold (λ _ v acc, v + acc) 0 b.

(** The sum of the amounts of the mining calls of [ops]. *)
Fixpoint total_mined (ops : list op) : Z :=
  match ops with
  | [] => 0
  | Mining _ amount :: ops' => amount + total_mined ops'
  | Transfer _ _ _ :: ops' => total_mined ops'
  end.

(** Every balance is at least [0]. *)
Definition balances_nonneg (s : State) : Prop :=
  map_Forall (λ _ v, 0 ≤ v) (_balance (self s)).

(** Every transaction object has [next = None]: the condition under
    which a traversal from [first] ends at the first record. *)
Definition no_successors (s : State) : Prop :=
  Forall (λ t, next t = None) (heap s).

(** A ledger state that was tampered with: the ledger after
    [record_mining('David', 1)], whose only record then had its sender
    overwritten ([ledger.first.sender = 'Eve']), so that it reads as a
    transfer from a sender without an entry in [_balance]. *)
Definition unknown_sender_ledger : State :=
  let s := run [Mining "David" 1] in
  mk_State (<[0%nat := mk_Transaction "Eve" "David" 1 None 0 0]> (heap s))
    (self s).

(** What the methods establish about [first]: when it is set, it
    refers to a mining record without successor whose recipient has an
    entry in [_balance]. *)
Definition first_is_mining (s : State) : Prop :=
  match first (self s) with
  | None => True
  | Some l =>
      ∃ t, heap s !! l = Some t ∧ sender t = "" ∧ next t = None
           ∧ is_Some (_balance (self s) !! recipient t)
  end.

(** [self.last] is [None] or refers to an object of the store (as every
    Python reference does). *)
Definition last_allocated (s : State) : Prop :=
  match last (self s) with
  | None => True
  | Some l => is_Some (heap s !! l)
  end.

(** The representation invariants that the docstring of [_Transaction]
    states about one object's own fields. *)
Definition transaction_invariant (t : _Transaction) : Prop :=
  recipient t ≠ "" ∧ 0 < amount t.

(** The records met from reference [o] by following [next]. *)
Definition chain_records (fuel : nat) (h : list _Transaction)
    (o : option loc) : list _Transaction :=
  omap (λ l, h !! l) (chain fuel h o).

(** What one record adds to the balance of [person]: its amount if
    [person] receives it, less its amount if the record is a transfer
    (its sender is not the empty string) and [person] sends it. *)
Definition net_effect (t : _Transaction) (person : string) : Z :=
  (if decide (recipient t = person) then amount t else 0)
  - (if decide (sender t ≠ "" ∧ sender t = person) then amount t else 0).

(** What a list of records adds to the balance of [person]. *)
Definition net_flow (ts : list _Transaction) (person : string) : Z :=
  foldr (λ t acc, net_effect t person + acc) 0 ts.

(** What the digest-aware methods pass to [digest_from_hash]: the object
    [self.last] refers to, or [None]; and the digest they get back. *)
Definition tail_record (s : State) : option _Transaction :=
  match last (self s) with
  | None => None
  | Some l => heap s !! l
  end.

Definition tail_digest (digest_from_hash : option _Transaction → Z)
    (s : State) : Z :=
  digest_from_hash (tail_record s).

(** The call of Part 2(a) that a call of Part 2(b) is the digest-aware
    version of. *)
Definition plain_op (o : dop) : op :=
  match o with
  | MiningDigest miner amount => Mining miner amount
  | TransferDigest sender recipient amount =>
      Transfer sender recipient amount
  end.

(** The state a digest-aware call leaves behind, and a sequence of such
    calls from a given state. *)
Definition dexec (digest_from_hash : option _Transaction → Z) (s : State)
    (o : dop) : State :=
  (dcall digest_from_hash o s).2.

Definition drun_from (digest_from_hash : option _Transaction → Z)
    (s : State) (ops : list dop) : State :=
  foldl (dexec digest_from_hash) s ops.

(** A computation that leaves the state as it found it, however it ends. *)
Definition read_only {A} (m : M A) : Prop := ∀ s, (m s).2 = s.

(** * Properties *)

(** ** Read-only computations *)

Lemma read_only_mret {A} (a : A) : read_only (mret a : M A).
Proof. by intros s. Qed.

Lemma read_only_raise {A} (e : exn) : read_only (raise e : M A).
Proof. by intros s. Qed.

Lemma read_only_out_of_fuel {A} : read_only (out_of_fuel : M A).
Proof. by intros s. Qed.

Lemma read_only_bind {A B} (m : M A) (k : A → M B) :
  read_only m → (∀ a, read_only (k a)) → read_only (m ≫= k).
Proof.
  intros Hm Hk s. unfold mbind, M_bind.
  specialize (Hm s). destruct (m s) as [[a | e |] s']; simpl in *; subst s'.
  - apply Hk.
  - done.
  - done.
Qed.

Lemma read_only_deref (l : loc) : read_only (deref l).
Proof. intros s. unfold deref. by destruct (heap s !! l). Qed.

Lemma read_only_get_first : read_only get_first.
Proof. by intros s. Qed.

Lemma read_only_get_last : read_only get_last.
Proof. by intros s. Qed.

Lemma read_only_read_balance : read_only read_balance.
Proof. by intros s. Qed.

Lemma read_only_balance_getitem (name : string) :
  read_only (balance_getitem name).
Proof.
  intros s. unfold balance_getitem. by destruct (_balance (self s) !! name).
Qed.

Lemma read_only_balance_contains (name : string) :
  read_only (balance_contains name).
Proof. by intros s. Qed.

Lemma read_only_dict_getitem (d : gmap string Z) (name : string) :
  read_only (dict_getitem d name).
Proof.
  unfold dict_getitem. destruct (d !! name).
  - apply read_only_mret.
  - apply read_only_raise.
Qed.

Create HintDb read_only.
#[local] Hint Resolve read_only_mret read_only_raise read_only_out_of_fuel
  read_only_deref read_only_get_first read_only_get_last
  read_only_read_balance read_only_balance_getitem
  read_only_balance_contains read_only_dict_getitem : read_only.

(** Splits a sequence of read-only steps, and the branches between
    them, down to the primitive reads. *)
Ltac read_only_steps :=
  repeat first
    [ progress auto with read_only
    | apply read_only_bind; [ | intros ? ]
    | match goal with
      | |- read_only (if ?b then _ else _) => destruct b
      | |- read_only (match ?x with _ => _ end) => destruct x
      end ].

Lemma read_only_get_balance (person : string) : read_only (get_balance person).
Proof. unfold get_balance. read_only_steps. Qed.

Lemma read_only_verify_walk (fuel : nat) :
  ∀ curr_trans balance_so_far,
    read_only (verify_walk fuel curr_trans balance_so_far).
Proof.
  induction fuel as [| fuel IH]; intros [l |] balance_so_far; simpl;
    read_only_steps.
Qed.

Lemma read_only_verify_compare (names : list string)
    (balance_so_far : gmap string Z) :
  read_only (verify_compare names balance_so_far).
Proof.
  induction names as [| name names IH]; simpl; read_only_steps.
Qed.

#[local] Hint Resolve read_only_verify_walk read_only_verify_compare
  : read_only.

(** C10. [verify_balance] is read-only: however it ends, and whatever
    bound is put on its loop, the state it leaves (the ledger's [first],
    [last] and [_balance], and every transaction object with all its
    fields) is the state it was called in. *)
Theorem verify_balance_read_only (fuel : nat) (s : State) :
  (verify_balance fuel s).2 = s.
Proof.
  revert s. change (read_only (verify_balance fuel)).
  unfold verify_balance. read_only_steps.
Qed.

(** ** Rejected transfers *)

(** Unfolds one call down to the primitive operations on the state. *)
Ltac unfold_call :=
  unfold record_transfer, record_mining, get_balance, mbind, M_bind, mret,
    M_ret, raise, alloc, get_first, get_last, set_first, set_last,
    read_balance, balance_getitem, balance_contains, balance_setitem;
  simpl.

(** What a call of [record_transfer] does when the sender has no
    balance recorded: the subscript [self._balance[sender]] of the first
    test raises [KeyError], after the new object was created and before
    any attribute of the ledger is assigned. *)
Lemma record_transfer_unknown_sender (s : State) (sender recipient : string)
    (amount : Z) :
  _balance (self s) !! sender = None →
  record_transfer sender recipient amount s =
    (Raise KeyError,
     mk_State (heap s ++ [mk_Transaction sender recipient amount None 0 0])
       (self s)).
Proof. intros Hnone. unfold_call. by rewrite Hnone. Qed.

(** What it does when the sender's balance is less than the amount:
    [ValueError], again before any assignment. *)
Lemma record_transfer_insufficient (s : State) (sender recipient : string)
    (amount b : Z) :
  _balance (self s) !! sender = Some b → b < amount →
  record_transfer sender recipient amount s =
    (Raise ValueError,
     mk_State (heap s ++ [mk_Transaction sender recipient amount None 0 0])
       (self s)).
Proof.
  intros Hsome Hlt. unfold_call. rewrite Hsome.
  by rewrite (proj2 (Z.ltb_lt b amount) Hlt).
Qed.

(** What it does otherwise: the new object becomes [last], the sender's
    balance is lowered, and the recipient's balance is raised (read back
    after the sender's was lowered) or created. *)
Lemma record_transfer_accepted (s : State) (sender recipient : string)
    (amount b : Z) :
  _balance (self s) !! sender = Some b → amount ≤ b →
  record_transfer sender recipient amount s =
    (Ret tt,
     mk_State (heap s ++ [mk_Transaction sender recipient amount None 0 0])
       (mk_Ledger (first (self s)) (Some (length (heap s)))
          (let deducted := <[sender := b - amount]> (_balance (self s)) in
           match deducted !! recipient with
           | None => <[recipient := amount]> deducted
           | Some b' => <[recipient := b' + amount]> deducted
           end))).
Proof.
  intros Hsome Hle. unfold_call. rewrite Hsome.
  rewrite (proj2 (Z.ltb_ge b amount) Hle). simpl.
  rewrite Hsome. simpl. rewrite Hsome. simpl.
  destruct (<[sender := b - amount]> (_balance (self s)) !! recipient)
    as [b' |] eqn:Hrecipient; simpl; [| done].
  by rewrite Hrecipient.
Qed.

(** What a call of [record_mining] does: it always returns; the new
    object becomes [first] on a ledger without one and [last] otherwise,
    and the miner's balance is set to the amount. *)
Lemma record_mining_spec (s : State) (miner : string) (amount : Z) :
  record_mining miner amount s =
    (Ret tt,
     mk_State (heap s ++ [mk_Transaction "" miner amount None 0 0])
       (match first (self s) with
        | None =>
            mk_Ledger (Some (length (heap s))) (last (self s))
              (<[miner := amount]> (_balance (self s)))
        | Some f =>
            mk_Ledger (Some f) (Some (length (heap s)))
              (<[miner := amount]> (_balance (self s)))
        end)).
Proof.
  unfold_call. destruct (first (self s)) eqn:Hfirst; simpl; by rewrite ?Hfirst.
Qed.

(** A call of [record_transfer] raises in those two cases and in no
    other. *)
Lemma record_transfer_raises_iff (s : State) (sender recipient : string)
    (amount : Z) :
  (∃ e, (record_transfer sender recipient amount s).1 = Raise e)
  ↔ (_balance (self s) !! sender = None
     ∨ ∃ b, _balance (self s) !! sender = Some b ∧ b < amount).
Proof.
  destruct (_balance (self s) !! sender) as [b |] eqn:Hsender.
  - destruct (Z.lt_ge_cases b amount) as [Hlt | Hge].
    + rewrite (record_transfer_insufficient _ _ _ _ _ Hsender Hlt).
      split; [| by eexists]. intros _. right. by exists b.
    + rewrite (record_transfer_accepted _ _ _ _ _ Hsender Hge). simpl.
      split.
      * by intros [e He].
      * intros [Hnone | (b' & Hb' & Hlt)]; [done |].
        injection Hb' as <-. lia.
  - rewrite (record_transfer_unknown_sender _ _ _ _ Hsender).
    split; [| by eexists]. intros _. by left.
Qed.

(** C4. A rejected [record_transfer] (the sender has no entry in
    [_balance], or the sender's balance is strictly less than the
    amount) raises and performs no mutation: the ledger object, that is
    [first], [last] and the whole of [_balance], is as before the call,
    and so is every transaction object that existed before the call. *)
Theorem record_transfer_rejected_no_mutation (s : State)
    (sender recipient : string) (amount : Z) :
  (_balance (self s) !! sender = None
   ∨ ∃ b, _balance (self s) !! sender = Some b ∧ b < amount) →
  (∃ e, (record_transfer sender recipient amount s).1 = Raise e)
  ∧ self (record_transfer sender recipient amount s).2 = self s
  ∧ ∀ l t, heap s !! l = Some t →
           heap (record_transfer sender recipient amount s).2 !! l = Some t.
Proof.
  intros [Hnone | (b & Hsome & Hlt)].
  - rewrite (record_transfer_unknown_sender _ _ _ _ Hnone). simpl.
    split; [by eexists |]. split; [done |].
    intros l t Hl. by apply lookup_app_l_Some.
  - rewrite (record_transfer_insufficient _ _ _ _ _ Hsome Hlt). simpl.
    split; [by eexists |]. split; [done |].
    intros l t Hl. by apply lookup_app_l_Some.
Qed.

(** C4 at two rejected calls: an unknown sender on the empty ledger,
    and a sender with balance 5 asked for 10. *)
Lemma record_transfer_rejected_no_mutation_witness :
  ((∃ e, (record_transfer "David" "Mario" 5 init).1 = Raise e)
   ∧ self (record_transfer "David" "Mario" 5 init).2 = self init
   ∧ ∀ l t, heap init !! l = Some t →
            heap (record_transfer "David" "Mario" 5 init).2 !! l = Some t)
  ∧
  ((∃ e, (record_transfer "David" "Mario" 10 (run [Mining "David" 5])).1
         = Raise e)
   ∧ self (record_transfer "David" "Mario" 10 (run [Mining "David" 5])).2
     = self (run [Mining "David" 5])
   ∧ ∀ l t, heap (run [Mining "David" 5]) !! l = Some t →
            heap (record_transfer "David" "Mario" 10
                    (run [Mining "David" 5])).2 !! l = Some t).
Proof.
  split.
  - apply (record_transfer_rejected_no_mutation init "David" "Mario" 5).
    left. reflexivity.
  - apply (record_transfer_rejected_no_mutation
             (run [Mining "David" 5]) "David" "Mario" 10).
    right. exists 5. split; [reflexivity | lia].
Defined.

(** ** Non-negative balances *)

Lemma record_mining_nonneg (s : State) (miner : string) (amount : Z) :
  0 < amount → balances_nonneg s →
  balances_nonneg (record_mining miner amount s).2.
Proof.
  intros Hpos Hs. rewrite record_mining_spec. unfold balances_nonneg in *.
  destruct (first (self s)); simpl; apply map_Forall_insert_2; auto; lia.
Qed.

Lemma record_transfer_nonneg (s : State) (sender recipient : string)
    (amount : Z) :
  0 < amount → balances_nonneg s →
  balances_nonneg (record_transfer sender recipient amount s).2.
Proof.
  intros Hpos Hs.
  destruct (_balance (self s) !! sender) as [b |] eqn:Hsender.
  - destruct (Z.lt_ge_cases b amount) as [Hlt | Hge].
    + by rewrite (record_transfer_insufficient _ _ _ _ _ Hsender Hlt).
    + rewrite (record_transfer_accepted _ _ _ _ _ Hsender Hge).
      unfold balances_nonneg in *. simpl.
      assert (Hded : map_Forall (λ _ v, 0 ≤ v)
                       (<[sender := b - amount]> (_balance (self s)))).
      { apply map_Forall_insert_2; [lia | done]. }
      destruct (<[sender := b - amount]> (_balance (self s)) !! recipient)
        as [b' |] eqn:Hrecipient.
      * apply map_Forall_insert_2; [| done].
        specialize (Hded _ _ Hrecipient). simpl in Hded. lia.
      * apply map_Forall_insert_2; [lia | done].
  - by rewrite (record_transfer_unknown_sender _ _ _ _ Hsender).
Qed.

Lemma exec_nonneg (s : State) (o : op) :
  valid_op o → balances_nonneg s → balances_nonneg (exec s o).
Proof.
  destruct o as [miner amount | sender recipient amount]; simpl.
  - intros [_ Hpos]. by apply record_mining_nonneg.
  - intros (_ & _ & Hpos). by apply record_transfer_nonneg.
Qed.

Lemma run_from_nonneg (ops : list op) :
  ∀ s, Forall valid_op ops → balances_nonneg s →
       balances_nonneg (run_from s ops).
Proof.
  induction ops as [| o ops IH]; intros s Hvalid Hs; simpl; [done |].
  inversion Hvalid as [| ? ? Ho Hops]; subst.
  apply IH; [done |]. by apply exec_nonneg.
Qed.

Lemma init_nonneg : balances_nonneg init.
Proof. unfold balances_nonneg. simpl. apply map_Forall_empty. Qed.

(** C8. Along every sequence of calls of [record_mining] and
    [record_transfer] that meet the documented preconditions (non-empty
    names, positive amounts), starting from the empty ledger, every
    value of [_balance] is at least [0] after every call: the property
    holds after each prefix [take k ops] of the sequence. *)
Theorem balances_nonneg_after_every_operation (ops : list op) (k : nat) :
  Forall valid_op ops → balances_nonneg (run (take k ops)).
Proof.
  intros Hvalid. unfold run. apply run_from_nonneg.
  - by apply Forall_take.
  - apply init_nonneg.
Qed.

(** C8 on a sequence with a transfer that succeeds and one that is
    rejected, after its second call. *)
Lemma balances_nonneg_after_every_operation_witness :
  balances_nonneg
    (run (take 2 [Mining "David" 5; Transfer "David" "Mario" 2;
                  Transfer "David" "Mario" 10])).
Proof.
  apply (balances_nonneg_after_every_operation
           [Mining "David" 5; Transfer "David" "Mario" 2;
            Transfer "David" "Mario" 10] 2).
  repeat constructor; simpl; try discriminate; lia.
Defined.

(** ** The linked list built by the calls *)

(** No call assigns the [next] attribute of any object: every object is
    created with [next = None] and stays so. *)
Lemma exec_no_successors (s : State) (o : op) :
  no_successors s → no_successors (exec s o).
Proof.
  unfold no_successors, exec. intros Hs.
  destruct o as [miner amount | sender recipient amount]; simpl.
  - rewrite record_mining_spec. simpl.
    apply Forall_app. split; [done |]. by constructor.
  - destruct (_balance (self s) !! sender) as [b |] eqn:Hsender.
    + destruct (Z.lt_ge_cases b amount) as [Hlt | Hge].
      * rewrite (record_transfer_insufficient _ _ _ _ _ Hsender Hlt). simpl.
        apply Forall_app. split; [done |]. by constructor.
      * rewrite (record_transfer_accepted _ _ _ _ _ Hsender Hge). simpl.
        apply Forall_app. split; [done |]. by constructor.
    + rewrite (record_transfer_unknown_sender _ _ _ _ Hsender). simpl.
      apply Forall_app. split; [done |]. by constructor.
Qed.

Lemma run_from_no_successors (ops : list op) :
  ∀ s, no_successors s → no_successors (run_from s ops).
Proof.
  induction ops as [| o ops IH]; intros s Hs; simpl; [done |].
  apply IH. by apply exec_no_successors.
Qed.

(** Whatever the calls were, a traversal from [first] meets at most one
    record. *)
Lemma chain_run_at_most_one (ops : list op) (fuel : nat) :
  (length (chain fuel (heap (run ops)) (first (self (run ops)))) ≤ 1)%nat.
Proof.
  assert (Hno : no_successors (run ops)).
  { apply run_from_no_successors. constructor. }
  unfold no_successors in Hno. rewrite Forall_lookup in Hno.
  destruct fuel as [| fuel]; simpl; [lia |].
  destruct (first (self (run ops))) as [l |]; simpl; [| lia].
  destruct (heap (run ops) !! l) as [t |] eqn:Hl; simpl; [| lia].
  rewrite (Hno _ _ Hl). destruct fuel; simpl; lia.
Qed.

(** C1 (the code departs from it). After the two successful calls
    [record_mining('David', 50)] and [record_mining('Mario', 20)] on an
    empty ledger, [first] is the first record and [last] the second,
    but the first record's [next] is still [None]: a traversal from
    [first] meets one record, not two, and never reaches [last]. *)
Theorem chain_after_two_minings :
  let ops := [Mining "David" 50; Mining "Mario" 20] in
  all_succeed init ops = true
  ∧ first (self (run ops)) = Some 0%nat
  ∧ last (self (run ops)) = Some 1%nat
  ∧ heap (run ops) !! 0%nat = Some (mk_Transaction "" "David" 50 None 0 0)
  ∧ ∀ fuel, chain (S fuel) (heap (run ops)) (first (self (run ops)))
            = [0%nat].
Proof.
  simpl. repeat split; try reflexivity.
  intros fuel. destruct fuel; reflexivity.
Qed.

(** ** Balances against the chain *)

(** C2 (the code departs from it). The ledger reached by the two
    successful calls [record_mining('David', 5)] and
    [record_mining('Mario', 8)] was built through the methods alone,
    and [verify_balance] returns [False] on it, for every bound that
    lets its loop make at least one iteration. *)
Theorem verify_balance_false_after_two_minings :
  let ops := [Mining "David" 5; Mining "Mario" 8] in
  all_succeed init ops = true
  ∧ ∀ fuel, (verify_balance (S fuel) (run ops)).1 = Ret false.
Proof.
  simpl. split; [reflexivity |].
  intros fuel. destruct fuel; vm_compute; reflexivity.
Qed.

(** Whatever the miner's balance was, [record_mining] leaves it equal to
    the amount of the call. *)
Lemma record_mining_sets_balance (s : State) (miner : string) (amount : Z) :
  _balance (self (record_mining miner amount s).2) !! miner = Some amount.
Proof.
  rewrite record_mining_spec. simpl.
  destruct (first (self s)); simpl; apply lookup_insert_eq.
Qed.

(** C3 (the code departs from it). [record_mining('David', 5)] followed
    by [record_mining('David', 7)] leaves David's balance at 7, the
    amount of the second call, not at the sum 12. *)
Theorem record_mining_twice_overwrites :
  _balance (self (run [Mining "David" 5])) !! "David" = Some 5
  ∧ _balance (self (run [Mining "David" 5; Mining "David" 7])) !! "David"
    = Some 7.
Proof. split; reflexivity. Qed.

(** C5 (the code departs from it). On an empty ledger,
    [record_transfer('David', 'Mario', 5)] ends with [KeyError], raised
    by the subscript in the first test, not with [ValueError]. *)
Theorem record_transfer_unknown_sender_KeyError :
  (record_transfer "David" "Mario" 5 init).1 = Raise KeyError.
Proof. reflexivity. Qed.

(** C6 (the code departs from it). On a ledger whose chain holds a
    transfer from a sender without an entry in [_balance] (here the
    record [Eve -> David, 1] reached from [first], with
    [_balance = {David: 1}]), [verify_balance] ends with [KeyError],
    raised by [self._balance[sender]], instead of returning a boolean. *)
Theorem verify_balance_raises_on_unknown_sender :
  heap unknown_sender_ledger = [mk_Transaction "Eve" "David" 1 None 0 0]
  ∧ first (self unknown_sender_ledger) = Some 0%nat
  ∧ _balance (self unknown_sender_ledger) = {["David" := 1]}
  ∧ ∀ fuel,
      (verify_balance (S fuel) unknown_sender_ledger).1 = Raise KeyError.
Proof.
  split; [reflexivity |]. split; [reflexivity |]. split; [reflexivity |].
  intros fuel. vm_compute. reflexivity.
Qed.

(** C7 (the code departs from it). After the two mining calls
    [record_mining('David', 5)] and [record_mining('David', 7)] the
    balances sum to 7, while 12 was mined. *)
Theorem conservation_fails_after_repeated_mining :
  let ops := [Mining "David" 5; Mining "David" 7] in
  all_succeed init ops = true
  ∧ sum_balances (_balance (self (run ops))) = 7
  ∧ total_mined ops = 12.
Proof. simpl. repeat split; reflexivity. Qed.

(** ** Digests *)

(** C9 (the code departs from it). After
    [record_mining_digest('David', 50)] and
    [record_mining_digest('Mario', 20)] on an empty ledger, whatever the
    digest function, the second record stores the digest of [None]
    ([self.last] was never assigned by the first call), not the digest
    of the first record, which was the tail when it was appended; and
    for a digest function that tells the two apart the stored value is
    not the digest of the first record. *)
Theorem second_digest_record_ignores_predecessor :
  let ops := [MiningDigest "David" 50; MiningDigest "Mario" 20] in
  (∀ d, heap (drun d ops)
        = [mk_Transaction "" "David" 50 None 0 0;
           mk_Transaction "" "Mario" 20 None (d None) 0]
        ∧ first (self (drun d ops)) = Some 0%nat
        ∧ last (self (drun d ops)) = Some 1%nat)
  ∧ ∃ d r0 r1, heap (drun d ops) = [r0; r1]
               ∧ prev_digest r1 ≠ d (Some r0).
Proof.
  simpl. split.
  - intros d. repeat split; reflexivity.
  - exists (λ o, match o with None => 0 | Some t => amount t end).
    eexists. eexists. split; [reflexivity |]. simpl. discriminate.
Qed.

(** * Further properties of the methods *)

(** ** [get_balance] *)




(** ** The effect of an accepted transfer *)





(** ** The total of the balances *)

Lemma sum_balances_insert (m : gmap string Z) (k : string) (v : Z) :
  sum_balances (<[k := v]> m) = v - default 0 (m !! k) + sum_balances m.
Proof.
  assert (Hfresh : ∀ m' : gmap string Z, m' !! k = None →
            ∀ w, sum_balances (<[k := w]> m') = w + sum_balances m').
  { intros m' Hnone w. unfold sum_balances.
    rewrite map_fold_insert_L; [done | intros; lia | done]. }
  destruct (m !! k) as [w |] eqn:Hk; simpl.
  - rewrite <- (insert_delete_eq m k v).
    rewrite <- (insert_delete_id m k w Hk) at 2.
    rewrite !Hfresh by apply lookup_delete_eq. lia.
  - rewrite Hfresh by done. lia.
Qed.

Lemma sum_balances_record_transfer (s : State) (sender recipient : string)
    (amount : Z) :
  sum_balances (_balance (self (record_transfer sender recipient amount s).2))
  = sum_balances (_balance (self s)).
Proof.
  destruct (_balance (self s) !! sender) as [b |] eqn:Hsender.
  - destruct (Z.lt_ge_cases b amount) as [Hlt | Hge].
    + by rewrite (record_transfer_insufficient _ _ _ _ _ Hsender Hlt).
    + rewrite (record_transfer_accepted _ _ _ _ _ Hsender Hge). simpl.
      destruct (<[sender := b - amount]> (_balance (self s)) !! recipient)
        as [b' |] eqn:Hrecipient;
        rewrite !sum_balances_insert, Hrecipient, Hsender; simpl; lia.
  - by rewrite (record_transfer_unknown_sender _ _ _ _ Hsender).
Qed.

(** X5. Transfers conserve the total: after any sequence of
    [record_transfer] calls, accepted or rejected, from any state, the
    sum of the balances is what it was. *)
Theorem record_transfer_preserves_sum (s : State)
    (transfers : list (string * string * Z)) :
  sum_balances
    (_balance (self (run_from s
       (map (λ '(sender, recipient, amount),
               Transfer sender recipient amount) transfers))))
  = sum_balances (_balance (self s)).
Proof.
  revert s. induction transfers as [| [[sender recipient] amount] ts IH];
    intros s; simpl; [done |].
  unfold run_from in IH. rewrite IH. unfold exec. simpl.
  apply sum_balances_record_transfer.
Qed.

Lemma exec_sum_le (s : State) (o : op) :
  valid_op o → balances_nonneg s →
  sum_balances (_balance (self (exec s o)))
  ≤ sum_balances (_balance (self s)) + total_mined [o].
Proof.
  intros Hvalid Hs. destruct o as [miner amount | sender recipient amount];
    unfold exec; simpl.
  - rewrite record_mining_spec. simpl.
    assert (Hold : 0 ≤ default 0 (_balance (self s) !! miner)).
    { destruct (_balance (self s) !! miner) as [w |] eqn:Hminer; simpl;
        [| lia].
      exact (Hs _ _ Hminer). }
    destruct (first (self s)); simpl; rewrite sum_balances_insert; lia.
  - rewrite sum_balances_record_transfer. lia.
Qed.

Lemma run_from_sum_le (ops : list op) :
  ∀ s, Forall valid_op ops → balances_nonneg s →
       sum_balances (_balance (self (run_from s ops)))
       ≤ sum_balances (_balance (self s)) + total_mined ops.
Proof.
  induction ops as [| o ops IH]; intros s Hvalid Hs; simpl; [lia |].
  inversion Hvalid as [| ? ? Ho Hops]; subst.
  specialize (IH (exec s o) Hops (exec_nonneg _ _ Ho Hs)).
  pose proof (exec_sum_le s o Ho Hs) as Hstep. simpl in Hstep.
  change (foldl exec (exec s o) ops) with (run_from (exec s o) ops).
  destruct o as [miner amount | sender recipient amount]; simpl in *; lia.
Qed.

(** X6. Along every sequence of calls that meet the documented
    preconditions, starting from the empty ledger, the balances never
    sum to more than the amounts mined so far. *)
Theorem sum_balances_le_total_mined (ops : list op) :
  Forall valid_op ops →
  sum_balances (_balance (self (run ops))) ≤ total_mined ops.
Proof.
  intros Hvalid.
  pose proof (run_from_sum_le ops init Hvalid init_nonneg) as Hle.
  unfold run. simpl in Hle.
  replace (sum_balances ∅) with 0 in Hle by reflexivity. lia.
Qed.

Lemma sum_balances_le_total_mined_witness :
  sum_balances
    (_balance (self (run [Mining "David" 5; Mining "David" 7;
                          Transfer "David" "Mario" 3])))
  ≤ total_mined [Mining "David" 5; Mining "David" 7;
                 Transfer "David" "Mario" 3].
Proof.
  apply (sum_balances_le_total_mined
           [Mining "David" 5; Mining "David" 7; Transfer "David" "Mario" 3]).
  repeat constructor; simpl; try discriminate; lia.
Defined.

(** ** What every sequence of calls keeps *)

(** Splits a call [exec s o] into its four courses: a mining, and a
    transfer that is short of funds, accepted, or from an unknown
    sender; each is rewritten to the state it leaves. *)
Ltac exec_cases s o :=
  unfold exec;
  destruct o as [miner amount | sender recipient amount]; simpl;
  [ rewrite record_mining_spec
  | let b := fresh "b" in
    let Hsender := fresh "Hsender" in
    let Hlt := fresh "Hlt" in
    let Hge := fresh "Hge" in
    destruct (_balance (self s) !! sender) as [b |] eqn:Hsender;
    [ destruct (Z.lt_ge_cases b amount) as [Hlt | Hge];
      [ rewrite (record_transfer_insufficient _ _ _ _ _ Hsender Hlt)
      | rewrite (record_transfer_accepted _ _ _ _ _ Hsender Hge) ]
    | rewrite (record_transfer_unknown_sender _ _ _ _ Hsender) ] ];
  simpl.

Lemma run_from_invariant (P : State → Prop) :
  (∀ s o, P s → P (exec s o)) →
  ∀ ops s, P s → P (run_from s ops).
Proof.
  intros Hstep ops. induction ops as [| o ops IH]; intros s Hs; simpl;
    [done |].
  apply IH. by apply Hstep.
Qed.

Lemma run_from_invariant_valid (P : State → Prop) :
  (∀ s o, valid_op o → P s → P (exec s o)) →
  ∀ ops s, Forall valid_op ops → P s → P (run_from s ops).
Proof.
  intros Hstep ops. induction ops as [| o ops IH]; intros s Hvalid Hs; simpl;
    [done |].
  inversion Hvalid as [| ? ? Ho Hops]; subst.
  apply IH; [done |]. by apply Hstep.
Qed.

Lemma exec_first_kept (s : State) (o : op) (l : loc) :
  first (self s) = Some l → first (self (exec s o)) = Some l.
Proof. intros Hfirst. exec_cases s o; by rewrite ?Hfirst. Qed.

(** X7. Once [first] is set, no sequence of calls assigns it again: it
    keeps referring to the same record. *)
Theorem first_never_reassigned (s : State) (ops : list op) (l : loc) :
  first (self s) = Some l → first (self (run_from s ops)) = Some l.
Proof.
  intros Hfirst.
  apply (run_from_invariant (λ s, first (self s) = Some l)); [| done].
  intros s' o. apply exec_first_kept.
Qed.

Lemma first_never_reassigned_witness :
  first (self (run_from (run [Mining "David" 5])
                 [Mining "Mario" 8; Transfer "David" "Mario" 2]))
  = Some 0%nat.
Proof.
  apply (first_never_reassigned (run [Mining "David" 5])
           [Mining "Mario" 8; Transfer "David" "Mario" 2] 0%nat).
  reflexivity.
Defined.

Lemma exec_balance_empty_iff (s : State) (o : op) :
  (_balance (self s) = ∅ ↔ first (self s) = None ∧ last (self s) = None) →
  (_balance (self (exec s o)) = ∅
   ↔ first (self (exec s o)) = None ∧ last (self (exec s o)) = None).
Proof.
  intros Hs. exec_cases s o.
  - destruct (first (self s)); simpl; split.
    + intros Hempty. by apply insert_non_empty in Hempty.
    + by intros [? _].
    + intros Hempty. by apply insert_non_empty in Hempty.
    + by intros [? _].
  - done.
  - split.
    + intros Hempty.
      destruct (<[sender := b - amount]> (_balance (self s)) !! recipient);
        by apply insert_non_empty in Hempty.
    + by intros [_ ?].
  - done.
Qed.

(** X8. The representation invariant that the docstring of [Ledger]
    states as [(self._balance == {}) == (self.first is None and
    self.last is None)] holds after every sequence of calls on a ledger
    created empty. *)
Theorem balance_empty_iff_no_transactions (ops : list op) :
  _balance (self (run ops)) = ∅
  ↔ first (self (run ops)) = None ∧ last (self (run ops)) = None.
Proof.
  unfold run.
  apply (run_from_invariant
           (λ s, _balance (self s) = ∅
                 ↔ first (self s) = None ∧ last (self s) = None)).
  - intros s o. apply exec_balance_empty_iff.
  - done.
Qed.




Lemma exec_names_nonempty (s : State) (o : op) :
  valid_op o →
  (∀ person, is_Some (_balance (self s) !! person) → person ≠ "") →
  ∀ person, is_Some (_balance (self (exec s o)) !! person) → person ≠ "".
Proof.
  intros Hvalid Hs person. exec_cases s o; try apply Hs.
  - destruct Hvalid as [Hminer _].
    destruct (first (self s)); simpl; rewrite lookup_insert_is_Some';
      (intros [<- | Hperson]; [done | by apply Hs]).
  - destruct Hvalid as (Hsd & Hrc & _).
    destruct (<[sender := b - amount]> (_balance (self s)) !! recipient);
      rewrite !lookup_insert_is_Some';
      (intros [<- | [<- | Hperson]]; [done | done | by apply Hs]).
Qed.

(** X10. The representation invariant that the docstring of [Ledger]
    states as [all([names != '' for names in self._balance])] holds
    after every sequence of calls that meet the documented
    preconditions. *)
Theorem balance_names_nonempty (ops : list op) (person : string) :
  Forall valid_op ops →
  is_Some (_balance (self (run ops)) !! person) → person ≠ "".
Proof.
  intros Hvalid. revert person. unfold run.
  apply (run_from_invariant_valid
           (λ s, ∀ person, is_Some (_balance (self s) !! person)
                           → person ≠ "")); [| done |].
  - intros s o. apply exec_names_nonempty.
  - intros person [v Hv]. simpl in Hv. by rewrite lookup_empty in Hv.
Qed.

Lemma balance_names_nonempty_witness :
  _balance (self (run [Mining "David" 5; Transfer "David" "Mario" 2]))
    !! "Mario" = Some 2
  ∧ "Mario" ≠ "".
Proof.
  split; [reflexivity |].
  apply (balance_names_nonempty
           [Mining "David" 5; Transfer "David" "Mario" 2] "Mario").
  - repeat constructor; simpl; try discriminate; lia.
  - exists 2. reflexivity.
Defined.

Lemma exec_transactions_invariant (s : State) (o : op) :
  valid_op o →
  Forall transaction_invariant (heap s) →
  Forall transaction_invariant (heap (exec s o)).
Proof.
  intros Hvalid Hs.
  exec_cases s o; apply Forall_app; (split; [done |]);
    constructor; try done; unfold transaction_invariant; simpl;
    simpl in Hvalid; tauto.
Qed.

(** X11. Every transaction object created along a sequence of calls
    that meet the documented preconditions, the ones created by
    rejected transfers included, satisfies the representation
    invariants of [_Transaction] on its own fields: a non-empty
    recipient and a positive amount. *)
Theorem transactions_keep_invariant (ops : list op) (l : loc)
    (t : _Transaction) :
  Forall valid_op ops → heap (run ops) !! l = Some t →
  recipient t ≠ "" ∧ 0 < amount t.
Proof.
  intros Hvalid Hl.
  assert (Hall : Forall transaction_invariant (heap (run ops))).
  { unfold run.
    apply (run_from_invariant_valid
             (λ s, Forall transaction_invariant (heap s))); [| done |].
    - intros s o. apply exec_transactions_invariant.
    - constructor. }
  rewrite Forall_lookup in Hall. exact (Hall _ _ Hl).
Qed.

Lemma transactions_keep_invariant_witness :
  heap (run [Mining "David" 5; Transfer "David" "Mario" 10]) !! 1%nat
  = Some (mk_Transaction "David" "Mario" 10 None 0 0)
  ∧ recipient (mk_Transaction "David" "Mario" 10 None 0 0) ≠ ""
  ∧ 0 < amount (mk_Transaction "David" "Mario" 10 None 0 0).
Proof.
  split; [reflexivity |].
  apply (transactions_keep_invariant
           [Mining "David" 5; Transfer "David" "Mario" 10] 1%nat).
  - repeat constructor; simpl; try discriminate; lia.
  - reflexivity.
Defined.


Lemma exec_heap_length (s : State) (o : op) :
  length (heap (exec s o)) = S (length (heap s)).
Proof. exec_cases s o; rewrite length_app; simpl; lia. Qed.


(** ** [verify_balance] step by step *)

(** One iteration of the loop of [verify_balance], as an equation: the
    record is read, the recipient is credited in [balance_so_far], and
    a transfer is checked against the stored balance of its sender
    before the sender is debited. *)
Lemma verify_walk_step (fuel : nat) (l : loc) (bsf : gmap string Z)
    (s : State) (t : _Transaction) (r : Z) :
  heap s !! l = Some t → bsf !! recipient t = Some r →
  verify_walk (S fuel) (Some l) bsf s =
    if bool_decide (sender t ≠ "") then
      match _balance (self s) !! sender t with
      | None => (Raise KeyError, s)
      | Some b =>
          if (b <? amount t) || (b =? 0) then (Ret (inl false), s)
          else
            match <[recipient t := r + amount t]> bsf !! sender t with
            | None => (Raise KeyError, s)
            | Some v =>
                verify_walk fuel (next t)
                  (<[sender t := v - amount t]>
                     (<[recipient t := r + amount t]> bsf)) s
            end
      end
    else verify_walk fuel (next t) (<[recipient t := r + amount t]> bsf) s.
Proof.
  intros Hl Hr. simpl.
  unfold mbind, M_bind, deref, dict_getitem, balance_getitem, mret, M_ret,
    raise.
  rewrite Hl. rewrite Hr. simpl.
  destruct (bool_decide (sender t ≠ "")); [| done].
  destruct (_balance (self s) !! sender t) as [b |] eqn:Hb; simpl; [| done].
  destruct (b <? amount t); simpl; [done |].
  rewrite Hb. simpl.
  destruct (b =? 0); simpl; [done |].
  by destruct (<[recipient t := r + amount t]> bsf !! sender t).
Qed.

Lemma verify_walk_None (fuel : nat) (bsf : gmap string Z) (s : State) :
  verify_walk fuel None bsf s = (Ret (inr bsf), s).
Proof. by destruct fuel. Qed.

Lemma verify_walk_dangling (fuel : nat) (l : loc) (bsf : gmap string Z)
    (s : State) :
  heap s !! l = None →
  verify_walk (S fuel) (Some l) bsf s = (Raise DanglingRef, s).
Proof.
  intros Hl. simpl. unfold mbind, M_bind, deref. by rewrite Hl.
Qed.

Lemma verify_walk_unknown_recipient (fuel : nat) (l : loc)
    (bsf : gmap string Z) (s : State) (t : _Transaction) :
  heap s !! l = Some t → bsf !! recipient t = None →
  verify_walk (S fuel) (Some l) bsf s = (Raise KeyError, s).
Proof.
  intros Hl Hr. simpl. unfold mbind, M_bind, deref, dict_getitem, raise.
  rewrite Hl. by rewrite Hr.
Qed.

(** The accumulator that [verify_balance] starts from: one entry [0]
    for each key of [_balance]. *)
Lemma zero_balances_lookup (names : list string) (acc : gmap string Z)
    (k : string) :
  foldl (λ acc name, <[name := 0]> acc) acc names !! k =
    if decide (k ∈ names) then Some 0 else acc !! k.
Proof.
  revert acc. induction names as [| name names IH]; intros acc; simpl.
  - destruct (decide (k ∈ [])) as [Hin | _]; [| done].
    by apply elem_of_nil in Hin.
  - rewrite IH.
    destruct (decide (k ∈ names)) as [Hin | Hnin].
    + rewrite decide_True; [done |]. by right.
    + destruct (decide (k = name)) as [-> | Hne].
      * rewrite decide_True by left. apply lookup_insert_eq.
      * rewrite decide_False.
        -- by rewrite lookup_insert_ne.
        -- intros Hin. apply elem_of_cons in Hin. tauto.
Qed.

Lemma elem_of_keys (d : gmap string Z) (k : string) :
  k ∈ keys d ↔ is_Some (d !! k).
Proof.
  unfold keys. rewrite list_elem_of_fmap. split.
  - intros ([k' v] & -> & Hin). apply elem_of_map_to_list in Hin.
    by exists v.
  - intros [v Hv]. exists (k, v). split; [done |].
    by apply elem_of_map_to_list.
Qed.

Lemma zero_balances_spec (bal : gmap string Z) (k : string) :
  foldl (λ acc name, <[name := 0]> acc) (∅ : gmap string Z) (keys bal) !! k
  = (λ _, 0) <$> bal !! k.
Proof.
  rewrite zero_balances_lookup.
  destruct (decide (k ∈ keys bal)) as [Hin | Hnin].
  - apply elem_of_keys in Hin as [v Hv]. by rewrite Hv.
  - rewrite lookup_empty.
    destruct (bal !! k) as [v |] eqn:Hk; [| done].
    exfalso. apply Hnin, elem_of_keys. by exists v.
Qed.

(** The final comparison, when every name it meets has an entry in both
    dictionaries: it returns whether the two agree on all the names. *)
Lemma verify_compare_spec (names : list string) (bsf : gmap string Z)
    (s : State) :
  (∀ n, n ∈ names →
        is_Some (bsf !! n) ∧ is_Some (_balance (self s) !! n)) →
  verify_compare names bsf s =
    (Ret (bool_decide
            (Forall (λ n, bsf !! n = _balance (self s) !! n) names)), s).
Proof.
  induction names as [| n names IH]; intros Hnames; simpl.
  - reflexivity.
  - destruct (Hnames n) as [[v Hv] [b Hb]]; [by left |].
    unfold mbind, M_bind, dict_getitem, balance_getitem, mret, M_ret.
    rewrite Hv. simpl. rewrite Hb. simpl.
    destruct (Z.eqb_spec v b) as [-> | Hne]; simpl.
    + rewrite IH by (intros n' Hn'; apply Hnames; by right).
      f_equal. f_equal. apply bool_decide_ext.
      rewrite Forall_cons. rewrite Hv, Hb. tauto.
    + f_equal. f_equal. symmetry. apply bool_decide_eq_false_2.
      rewrite Forall_cons. rewrite Hv, Hb. intros [Heq _]. congruence.
Qed.

(** The same, when the two dictionaries have the same keys: it returns
    whether they are equal. *)
Lemma verify_compare_same_keys (bsf : gmap string Z) (s : State) :
  (∀ k, is_Some (bsf !! k) ↔ is_Some (_balance (self s) !! k)) →
  verify_compare (keys bsf) bsf s =
    (Ret (bool_decide (bsf = _balance (self s))), s).
Proof.
  intros Hkeys. rewrite verify_compare_spec.
  - f_equal. f_equal. apply bool_decide_ext. rewrite Forall_forall. split.
    + intros Hall. apply map_eq. intros k.
      destruct (bsf !! k) as [v |] eqn:Hk.
      * rewrite <- Hk. apply Hall. apply elem_of_keys. by exists v.
      * destruct (_balance (self s) !! k) as [b |] eqn:Hb; [| done].
        assert (Hsome : is_Some (bsf !! k)) by (apply Hkeys; by exists b).
        rewrite Hk in Hsome. by destruct Hsome.
    + by intros ->.
  - intros n Hn. apply elem_of_keys in Hn. split; [done |]. by apply Hkeys.
Qed.

(** The whole of [verify_balance] on a ledger without first record. *)
Lemma verify_balance_no_first (fuel : nat) (s : State) :
  first (self s) = None →
  verify_balance fuel s =
    (Ret (bool_decide ((λ _, 0) <$> _balance (self s) = _balance (self s))),
     s).
Proof.
  intros Hfirst. unfold verify_balance.
  unfold mbind, M_bind, get_first, read_balance. simpl. rewrite Hfirst.
  rewrite verify_walk_None.
  assert (Hzero : foldl (λ acc name, <[name := 0]> acc)
                    (∅ : gmap string Z) (keys (_balance (self s)))
                  = (λ _, 0) <$> _balance (self s)).
  { apply map_eq. intros k. rewrite zero_balances_spec.
    by rewrite lookup_fmap. }
  rewrite Hzero. apply verify_compare_same_keys.
  intros k. rewrite lookup_fmap. by rewrite fmap_is_Some.
Qed.

Lemma zero_balances_eq (bal : gmap string Z) :
  foldl (λ acc name, <[name := 0]> acc) (∅ : gmap string Z) (keys bal)
  = (λ _, 0) <$> bal.
Proof.
  apply map_eq. intros k. rewrite zero_balances_spec. by rewrite lookup_fmap.
Qed.

(** The whole of [verify_balance] on a ledger whose first record is a
    mining record without successor. *)
Lemma verify_balance_first_mining (fuel : nat) (s : State) (l : loc)
    (t : _Transaction) :
  first (self s) = Some l → heap s !! l = Some t → sender t = "" →
  next t = None → is_Some (_balance (self s) !! recipient t) →
  verify_balance (S fuel) s =
    (Ret (bool_decide
            (<[recipient t := 0 + amount t]> ((λ _, 0) <$> _balance (self s))
             = _balance (self s))), s).
Proof.
  intros Hfirst Hl Hsender Hnext Hrecipient. unfold verify_balance.
  unfold mbind at 1 2 3. unfold M_bind, get_first, read_balance.
  rewrite Hfirst. rewrite zero_balances_eq.
  assert (Hzero : ((λ _, 0) <$> _balance (self s)) !! recipient t = Some 0).
  { rewrite lookup_fmap. destruct Hrecipient as [v ->]. done. }
  rewrite (verify_walk_step fuel l _ s t 0 Hl Hzero).
  rewrite Hsender. rewrite bool_decide_eq_false_2 by (intros Hne; by apply Hne).
  rewrite Hnext, verify_walk_None.
  apply verify_compare_same_keys.
  intros k. rewrite lookup_insert_is_Some', lookup_fmap, fmap_is_Some.
  split; [| by right]. intros [<- | Hk]; done.
Qed.

Lemma exec_first_is_mining (s : State) (o : op) :
  first_is_mining s → first_is_mining (exec s o).
Proof.
  unfold first_is_mining. intros Hs.
  exec_cases s o.
  - destruct (first (self s)) as [f |] eqn:Hfirst; simpl.
    + destruct Hs as (t & Hf & Hsd & Hnx & Hrc). exists t.
      split; [by apply lookup_app_l_Some |].
      split; [done |]. split; [done |].
      rewrite lookup_insert_is_Some'. by right.
    + exists (mk_Transaction "" miner amount None 0 0).
      split; [apply list_lookup_middle; done |]. simpl.
      split; [done |]. split; [done |].
      rewrite lookup_insert_is_Some'. by left.
  - destruct (first (self s)) as [f |]; [| done].
    destruct Hs as (t & Hf & Hsd & Hnx & Hrc). exists t.
    split; [by apply lookup_app_l_Some | done].
  - destruct (first (self s)) as [f |]; [| done].
    destruct Hs as (t & Hf & Hsd & Hnx & Hrc). exists t.
    split; [by apply lookup_app_l_Some |].
    split; [done |]. split; [done |].
    destruct (<[sender := b - amount]> (_balance (self s)) !! recipient);
      rewrite !lookup_insert_is_Some'; right; by right.
  - destruct (first (self s)) as [f |]; [| done].
    destruct Hs as (t & Hf & Hsd & Hnx & Hrc). exists t.
    split; [by apply lookup_app_l_Some | done].
Qed.

Lemma run_first_is_mining (ops : list op) : first_is_mining (run ops).
Proof.
  unfold run. apply (run_from_invariant first_is_mining).
  - apply exec_first_is_mining.
  - exact I.
Qed.

(** X13. On every ledger built from the empty one by calls of
    [record_mining] and [record_transfer], [verify_balance] returns a
    boolean: it raises nothing, its loop makes at most one iteration,
    and the ledger is left as it was. *)
Theorem verify_balance_returns_on_built_ledger (ops : list op) (fuel : nat) :
  ∃ b, verify_balance (S fuel) (run ops) = (Ret b, run ops).
Proof.
  pose proof (run_first_is_mining ops) as Hinv. unfold first_is_mining in Hinv.
  destruct (first (self (run ops))) as [l |] eqn:Hfirst.
  - destruct Hinv as (t & Hl & Hsd & Hnx & Hrc).
    eexists. by apply (verify_balance_first_mining fuel _ l t).
  - eexists. by apply verify_balance_no_first.
Qed.



(** ** What [verify_balance] checks *)

Lemma chain_records_None (fuel : nat) (h : list _Transaction) :
  chain_records fuel h None = [].
Proof. by destruct fuel. Qed.

Lemma chain_records_Some (fuel : nat) (h : list _Transaction) (l : loc)
    (t : _Transaction) :
  h !! l = Some t →
  chain_records (S fuel) h (Some l) = t :: chain_records fuel h (next t).
Proof. intros Hl. unfold chain_records. simpl. rewrite Hl. simpl. by rewrite Hl. Qed.

(** The effect of one loop iteration on [balance_so_far], entry by
    entry, for a mining record and for a transfer. *)
Lemma credit_lookup (t : _Transaction) (bsf : gmap string Z) (r : Z)
    (p : string) :
  bsf !! recipient t = Some r → sender t = "" →
  <[recipient t := r + amount t]> bsf !! p
  = (λ v, v + net_effect t p) <$> bsf !! p.
Proof.
  intros Hr Hsender. unfold net_effect. rewrite Hsender.
  rewrite (decide_False (P := "" ≠ "" ∧ "" = p)) by (intros [Hne _]; by apply Hne).
  destruct (decide (recipient t = p)) as [<- | Hne].
  - rewrite lookup_insert_eq, Hr. simpl. f_equal; lia.
  - rewrite lookup_insert_ne by done.
    destruct (bsf !! p); simpl; [f_equal; lia | done].
Qed.

Lemma credit_debit_lookup (t : _Transaction) (bsf : gmap string Z) (r v : Z)
    (p : string) :
  bsf !! recipient t = Some r → sender t ≠ "" →
  <[recipient t := r + amount t]> bsf !! sender t = Some v →
  <[sender t := v - amount t]> (<[recipient t := r + amount t]> bsf) !! p
  = (λ v, v + net_effect t p) <$> bsf !! p.
Proof.
  intros Hr Hsender Hv. unfold net_effect.
  destruct (decide (sender t = p)) as [<- | Hsp].
  - rewrite lookup_insert_eq.
    rewrite (decide_True (P := sender t ≠ "" ∧ sender t = sender t)) by done.
    destruct (decide (recipient t = sender t)) as [Heq | Hne].
    + rewrite Heq in Hv, Hr. rewrite lookup_insert_eq in Hv.
      injection Hv as <-. rewrite Hr. simpl. f_equal; lia.
    + rewrite lookup_insert_ne in Hv by done. rewrite Hv. simpl.
      f_equal; lia.
  - rewrite lookup_insert_ne by done.
    rewrite (decide_False (P := sender t ≠ "" ∧ sender t = p)) by tauto.
    destruct (decide (recipient t = p)) as [<- | Hrp].
    + rewrite lookup_insert_eq, Hr. simpl. f_equal; lia.
    + rewrite lookup_insert_ne by done.
      destruct (bsf !! p); simpl; [f_equal; lia | done].
Qed.

(** When the loop of [verify_balance] runs to the end of the chain, each
    entry of [balance_so_far] has grown by the net flow of the records
    of the chain, and no entry was added or removed. *)
Lemma verify_walk_inr (fuel : nat) :
  ∀ curr bsf bsf' s s',
    verify_walk fuel curr bsf s = (Ret (inr bsf'), s') →
    ∀ p, bsf' !! p
         = (λ v, v + net_flow (chain_records fuel (heap s) curr) p)
             <$> bsf !! p.
Proof.
  induction fuel as [| fuel IH]; intros [l |] bsf bsf' s s' Hwalk p.
  - discriminate Hwalk.
  - rewrite verify_walk_None in Hwalk. injection Hwalk as <- _.
    destruct (bsf !! p); simpl; [f_equal; lia | done].
  - destruct (heap s !! l) as [t |] eqn:Hl;
      [| by rewrite (verify_walk_dangling _ _ _ _ Hl) in Hwalk].
    destruct (bsf !! recipient t) as [r |] eqn:Hr;
      [| by rewrite (verify_walk_unknown_recipient _ _ _ _ _ Hl Hr) in Hwalk].
    rewrite (verify_walk_step _ _ _ _ _ _ Hl Hr) in Hwalk.
    rewrite (chain_records_Some _ _ _ _ Hl). simpl.
    destruct (bool_decide (sender t ≠ "")) eqn:Hsender.
    + apply bool_decide_eq_true in Hsender.
      destruct (_balance (self s) !! sender t) as [b |]; [| discriminate].
      destruct ((b <? amount t) || (b =? 0)); [discriminate |].
      destruct (<[recipient t := r + amount t]> bsf !! sender t)
        as [v |] eqn:Hv; [| discriminate].
      rewrite (IH _ _ _ _ _ Hwalk p).
      rewrite (credit_debit_lookup t bsf r v p Hr Hsender Hv).
      destruct (bsf !! p); simpl; [f_equal; lia | done].
    + apply bool_decide_eq_false in Hsender.
      assert (Hempty : sender t = "").
      { destruct (decide (sender t = "")); [done | by exfalso; apply Hsender]. }
      rewrite (IH _ _ _ _ _ Hwalk p).
      rewrite (credit_lookup t bsf r p Hr Hempty).
      destruct (bsf !! p); simpl; [f_equal; lia | done].
  - rewrite verify_walk_None in Hwalk. injection Hwalk as <- _.
    rewrite chain_records_None. simpl.
    destruct (bsf !! p); simpl; [f_equal; lia | done].
Qed.

(** The loop never ends by returning [True]. *)
Lemma verify_walk_inl (fuel : nat) :
  ∀ curr bsf b s s',
    verify_walk fuel curr bsf s = (Ret (inl b), s') → b = false.
Proof.
  induction fuel as [| fuel IH]; intros [l |] bsf b s s' Hwalk.
  - discriminate Hwalk.
  - by rewrite verify_walk_None in Hwalk.
  - destruct (heap s !! l) as [t |] eqn:Hl;
      [| by rewrite (verify_walk_dangling _ _ _ _ Hl) in Hwalk].
    destruct (bsf !! recipient t) as [r |] eqn:Hr;
      [| by rewrite (verify_walk_unknown_recipient _ _ _ _ _ Hl Hr) in Hwalk].
    rewrite (verify_walk_step _ _ _ _ _ _ Hl Hr) in Hwalk.
    destruct (bool_decide (sender t ≠ "")).
    + destruct (_balance (self s) !! sender t) as [b0 |]; [| discriminate].
      destruct ((b0 <? amount t) || (b0 =? 0)); [by injection Hwalk |].
      destruct (<[recipient t := r + amount t]> bsf !! sender t)
        as [v |]; [| discriminate].
      by apply (IH _ _ _ _ _ Hwalk).
    + by apply (IH _ _ _ _ _ Hwalk).
  - by rewrite verify_walk_None in Hwalk.
Qed.

(** When the final comparison returns [True], the two dictionaries
    agree on every name it went through. *)
Lemma verify_compare_true (names : list string) (bsf : gmap string Z)
    (s s' : State) :
  verify_compare names bsf s = (Ret true, s') →
  ∀ n, n ∈ names →
       is_Some (bsf !! n) ∧ bsf !! n = _balance (self s) !! n.
Proof.
  induction names as [| name names IH]; intros Hcmp n Hn.
  - by apply elem_of_nil in Hn.
  - simpl in Hcmp.
    unfold mbind, M_bind, dict_getitem, balance_getitem, mret, M_ret, raise
      in Hcmp.
    destruct (bsf !! name) as [v |] eqn:Hv; [| discriminate].
    simpl in Hcmp.
    destruct (_balance (self s) !! name) as [b |] eqn:Hb; [| discriminate].
    simpl in Hcmp.
    destruct (Z.eqb_spec v b) as [-> | Hne]; simpl in Hcmp; [| discriminate].
    apply elem_of_cons in Hn as [-> | Hn].
    + rewrite Hv, Hb. by split.
    + by apply IH.
Qed.

Lemma verify_balance_unfold (fuel : nat) (s : State) :
  verify_balance fuel s =
    match verify_walk fuel (first (self s))
            ((λ _, 0) <$> _balance (self s)) s with
    | (Ret (inl b), s') => (Ret b, s')
    | (Ret (inr bsf), s') => verify_compare (keys bsf) bsf s'
    | (Raise e, s') => (Raise e, s')
    | (OutOfFuel, s') => (OutOfFuel, s')
    end.
Proof.
  unfold verify_balance. unfold mbind at 1 2 3.
  unfold M_bind, get_first, read_balance. rewrite zero_balances_eq.
  by destruct (verify_walk fuel (first (self s))
                 ((λ _, 0) <$> _balance (self s)) s) as [[[b | bsf] | e |] s'].
Qed.

Lemma verify_balance_true_net_flow (fuel : nat) (s : State) :
  (verify_balance fuel s).1 = Ret true →
  ∀ person v, _balance (self s) !! person = Some v →
    v = net_flow (chain_records fuel (heap s) (first (self s))) person.
Proof.
  intros Htrue person v Hv. rewrite verify_balance_unfold in Htrue.
  destruct (verify_walk fuel (first (self s))
              ((λ _, 0) <$> _balance (self s)) s)
    as [[[b | bsf] | e |] s'] eqn:Hwalk; simpl in Htrue; try discriminate.
  - injection Htrue as ->. by apply verify_walk_inl in Hwalk.
  - pose proof (read_only_verify_walk fuel (first (self s))
                  ((λ _, 0) <$> _balance (self s)) s) as Hro.
    rewrite Hwalk in Hro. simpl in Hro. subst s'.
    pose proof (verify_walk_inr _ _ _ _ _ _ Hwalk person) as Hperson.
    rewrite lookup_fmap, Hv in Hperson. simpl in Hperson.
    destruct (verify_compare (keys bsf) bsf s) as [r s''] eqn:Hcmp.
    simpl in Htrue. subst r.
    destruct (verify_compare_true _ _ _ _ Hcmp person) as [_ Heq].
    { apply elem_of_keys. by rewrite Hperson. }
    rewrite Hperson, Hv in Heq. injection Heq as <-. lia.
Qed.

(** X15. When [verify_balance] returns [True], every stored balance
    equals the net flow of the chain for that person: the amounts of
    the records reached from [first] that name the person as recipient,
    less the amounts of the transfers among them that name the person
    as sender. *)
Theorem verify_balance_true_sound (fuel : nat) (s : State)
    (person : string) (v : Z) :
  (verify_balance fuel s).1 = Ret true →
  _balance (self s) !! person = Some v →
  v = net_flow (chain_records fuel (heap s) (first (self s))) person.
Proof. intros Htrue. by apply verify_balance_true_net_flow. Qed.

Lemma verify_balance_true_sound_witness :
  (verify_balance 1 (run [Mining "David" 5])).1 = Ret true
  ∧ 5 = net_flow
          (chain_records 1 (heap (run [Mining "David" 5]))
             (first (self (run [Mining "David" 5])))) "David".
Proof.
  split; [reflexivity |].
  apply (verify_balance_true_sound 1 (run [Mining "David" 5]) "David" 5).
  - reflexivity.
  - reflexivity.
Defined.

(** ** A balance changed behind the ledger's back *)





(** ** The digest-aware methods *)

Lemma digest_of_ref_spec (d : option _Transaction → Z) (s : State) :
  last_allocated s →
  digest_of_ref d (last (self s)) s = (Ret (tail_digest d s), s).
Proof.
  unfold last_allocated, tail_digest, tail_record, digest_of_ref.
  intros Hlast. destruct (last (self s)) as [l |]; [| done].
  destruct Hlast as [t Ht]. unfold mbind, M_bind, deref. by rewrite Ht.
Qed.

(** What a call of [record_transfer_digest] does: what [record_transfer]
    does, except that the new object stores the digest of the tail. *)
Lemma record_transfer_digest_spec (d : option _Transaction → Z) (s : State)
    (sender recipient : string) (amount : Z) :
  last_allocated s →
  record_transfer_digest d sender recipient amount s =
    ((record_transfer sender recipient amount s).1,
     mk_State
       (heap s
        ++ [mk_Transaction sender recipient amount None (tail_digest d s) 0])
       (self (record_transfer sender recipient amount s).2)).
Proof.
  intros Hlast. unfold record_transfer_digest.
  unfold mbind at 1 2. unfold M_bind at 1 2. unfold get_last.
  rewrite (digest_of_ref_spec d s Hlast).
  destruct (_balance (self s) !! sender) as [b |] eqn:Hsender.
  - destruct (Z.lt_ge_cases b amount) as [Hlt | Hge].
    + rewrite (record_transfer_insufficient _ _ _ _ _ Hsender Hlt).
      unfold_call. rewrite Hsender.
      by rewrite (proj2 (Z.ltb_lt b amount) Hlt).
    + rewrite (record_transfer_accepted _ _ _ _ _ Hsender Hge).
      unfold_call. rewrite Hsender.
      rewrite (proj2 (Z.ltb_ge b amount) Hge). simpl.
      rewrite Hsender. simpl. rewrite Hsender. simpl.
      destruct (<[sender := b - amount]> (_balance (self s)) !! recipient)
        as [b' |] eqn:Hrecipient; simpl; [| done].
      by rewrite Hrecipient.
  - rewrite (record_transfer_unknown_sender _ _ _ _ Hsender).
    unfold_call. by rewrite Hsender.
Qed.

(** What a call of [record_mining_digest] does: what [record_mining]
    does, except that the new object stores the digest of the tail, or 0
    when it becomes the first record. *)
Lemma record_mining_digest_spec (d : option _Transaction → Z) (s : State)
    (miner : string) (amount : Z) :
  last_allocated s →
  record_mining_digest d miner amount s =
    (Ret tt,
     mk_State
       (heap s
        ++ [mk_Transaction "" miner amount None
              (match first (self s) with
               | None => 0
               | Some _ => tail_digest d s
               end) 0])
       (self (record_mining miner amount s).2)).
Proof.
  intros Hlast. unfold record_mining_digest.
  unfold mbind at 1 2. unfold M_bind at 1 2. unfold get_last.
  rewrite (digest_of_ref_spec d s Hlast).
  rewrite record_mining_spec. unfold_call. unfold set_prev_digest.
  destruct (first (self s)) as [f |] eqn:Hfirst; simpl; rewrite ?Hfirst;
    simpl; [done |].
  rewrite list_lookup_middle by done. simpl.
  rewrite insert_app_r_alt by done.
  by rewrite Nat.sub_diag.
Qed.

(** What any digest-aware call does, from what the call of Part 2(a)
    does: the same outcome and the same ledger attributes, and one new
    object, which differs from the one of Part 2(a) by its digest. *)
Lemma dcall_spec (d : option _Transaction → Z) (s : State) (o : dop) :
  last_allocated s →
  dcall d o s =
    ((call (plain_op o) s).1,
     mk_State
       (heap s
        ++ [match o with
            | MiningDigest miner amount =>
                mk_Transaction "" miner amount None
                  (match first (self s) with
                   | None => 0
                   | Some _ => tail_digest d s
                   end) 0
            | TransferDigest sender recipient amount =>
                mk_Transaction sender recipient amount None
                  (tail_digest d s) 0
            end])
       (self (exec s (plain_op o)))).
Proof.
  intros Hlast. destruct o as [miner amount | sender recipient amount]; simpl.
  - rewrite (record_mining_digest_spec d s miner amount Hlast).
    unfold exec. simpl. by rewrite record_mining_spec.
  - by rewrite (record_transfer_digest_spec d s sender recipient amount Hlast).
Qed.

Lemma exec_last (s : State) (o : op) :
  last (self (exec s o)) = last (self s)
  ∨ last (self (exec s o)) = Some (length (heap s)).
Proof.
  exec_cases s o; try by left.
  - destruct (first (self s)); simpl; [by right | by left].
  - by right.
Qed.

Lemma dexec_last_allocated (d : option _Transaction → Z) (s : State)
    (o : dop) :
  last_allocated s → last_allocated (dexec d s o).
Proof.
  intros Hlast. unfold dexec. rewrite (dcall_spec d s o Hlast).
  unfold last_allocated in *. simpl.
  destruct (exec_last s (plain_op o)) as [-> | ->].
  - destruct (last (self s)) as [l |]; [| done].
    destruct Hlast as [t Ht]. exists t. by apply lookup_app_l_Some.
  - eexists. by apply list_lookup_middle.
Qed.

(** The outcome of a call of Part 2(a) and the ledger attributes it
    leaves depend on the state only through the ledger attributes and
    the number of objects created so far. *)
Lemma call_depends_on_ledger (s1 s2 : State) (o : op) :
  self s1 = self s2 → length (heap s1) = length (heap s2) →
  (call o s1).1 = (call o s2).1 ∧ self (exec s1 o) = self (exec s2 o).
Proof.
  intros Hself Hlen. unfold exec.
  destruct o as [miner amount | sender recipient amount]; simpl.
  - rewrite !record_mining_spec. simpl. by rewrite Hself, Hlen.
  - destruct (_balance (self s2) !! sender) as [b |] eqn:Hsender.
    + assert (Hsender1 : _balance (self s1) !! sender = Some b)
        by (by rewrite Hself).
      destruct (Z.lt_ge_cases b amount) as [Hlt | Hge].
      * rewrite (record_transfer_insufficient s1 _ _ _ _ Hsender1 Hlt).
        by rewrite (record_transfer_insufficient s2 _ _ _ _ Hsender Hlt).
      * rewrite (record_transfer_accepted s1 _ _ _ _ Hsender1 Hge).
        rewrite (record_transfer_accepted s2 _ _ _ _ Hsender Hge).
        simpl. by rewrite Hself, Hlen.
    + assert (Hsender1 : _balance (self s1) !! sender = None)
        by (by rewrite Hself).
      rewrite (record_transfer_unknown_sender s1 _ _ _ Hsender1).
      by rewrite (record_transfer_unknown_sender s2 _ _ _ Hsender).
Qed.

Lemma drun_from_agrees (d : option _Transaction → Z) (ops : list dop) :
  ∀ s1 s2, last_allocated s1 → self s1 = self s2 →
    length (heap s1) = length (heap s2) →
    self (drun_from d s1 ops) = self (run_from s2 (map plain_op ops))
    ∧ last_allocated (drun_from d s1 ops).
Proof.
  induction ops as [| o ops IH]; intros s1 s2 Hlast Hself Hlen; simpl;
    [done |].
  apply IH.
  - by apply dexec_last_allocated.
  - unfold dexec. rewrite (dcall_spec d s1 o Hlast). simpl.
    by apply call_depends_on_ledger.
  - unfold dexec. rewrite (dcall_spec d s1 o Hlast). simpl.
    rewrite length_app, exec_heap_length. simpl. lia.
Qed.



(** X18. Along every sequence of digest-aware calls on a ledger created
    empty, whatever the digest function, [first], [last] and [_balance]
    are those that the same sequence of calls of Part 2(a) leaves. *)
Theorem digest_run_agrees_with_plain (d : option _Transaction → Z)
    (ops : list dop) :
  self (drun d ops) = self (run (map plain_op ops)).
Proof.
  change (drun d ops) with (drun_from d init ops). unfold run.
  by apply drun_from_agrees.
Qed.

Lemma call_Ret_last (s : State) (o : op) (f : loc) :
  first (self s) = Some f → (call o s).1 = Ret tt →
  last (self (exec s o)) = Some (length (heap s)).
Proof.
  intros Hfirst. exec_cases s o; rewrite ?Hfirst; simpl; try done.
Qed.

(** X19. A digest-aware call that returns, on a ledger that has a first
    record, makes the object it creates the new [last], and that object
    stores as [prev_digest] the value of [digest_from_hash] on the
    object [last] referred to when the method was called (on [None] if
    [last] was [None]). *)
Theorem digest_stored_by_append (d : option _Transaction → Z) (s : State)
    (o : dop) (f : loc) :
  last_allocated s → first (self s) = Some f → (dcall d o s).1 = Ret tt →
  last (self (dcall d o s).2) = Some (length (heap s))
  ∧ ∃ t, heap (dcall d o s).2 !! length (heap s) = Some t
         ∧ prev_digest t = d (tail_record s).
Proof.
  intros Hlast Hfirst. rewrite (dcall_spec d s o Hlast). simpl.
  intros Hret. split; [by apply (call_Ret_last s (plain_op o) f) |].
  eexists. split; [by apply list_lookup_middle |].
  destruct o as [miner amount | sender recipient amount]; simpl.
  - by rewrite Hfirst.
  - done.
Qed.

Lemma digest_stored_by_append_witness :
  last (self (dcall (λ o, match o with
                          | None => 0
                          | Some t => 1 + amount t
                          end)
                (MiningDigest "Ann" 3)
                (drun (λ o, match o with
                            | None => 0
                            | Some t => 1 + amount t
                            end)
                   [MiningDigest "David" 50; MiningDigest "Mario" 20])).2)
  = Some 2%nat
  ∧ ∃ t, heap (dcall (λ o, match o with
                           | None => 0
                           | Some t => 1 + amount t
                           end)
                 (MiningDigest "Ann" 3)
                 (drun (λ o, match o with
                             | None => 0
                             | Some t => 1 + amount t
                             end)
                    [MiningDigest "David" 50; MiningDigest "Mario" 20])).2
           !! 2%nat = Some t
         ∧ prev_digest t = 21.
Proof.
  apply (digest_stored_by_append
           (λ o, match o with None => 0 | Some t => 1 + amount t end)
           (drun (λ o, match o with None => 0 | Some t => 1 + amount t end)
              [MiningDigest "David" 50; MiningDigest "Mario" 20])
           (MiningDigest "Ann" 3) 0%nat).
  - exists (mk_Transaction "" "Mario" 20 None 0 0). reflexivity.
  - reflexivity.
  - reflexivity.
Defined.




